(** * Fit function adaptors: by, construct, protect, indirect

    A shallow embedding of the run-time behaviour of the adaptors of the
    Fit library (by.hpp, protect.hpp, construct.hpp, indirect.hpp), and a
    small model of the overload-resolution constraints their call
    operators declare.

    Run-time model.  A callable with side effects is a function into the
    state monad [M S]: the state [S] is whatever the wrapped callables
    read and write.  A variadic argument pack [xs...] is a list of
    arguments.  The adaptor objects are records; their [const] call
    operators take the adaptor by value and do not return a new one. *)

From Stdlib Require Import ZArith Lia.
From stdpp Require Import base list gmap.

(* ================================================================= *)
(** ** The state monad *)

Module StateM.

Definition M (S A : Type) : Type := S -> A * S.

Definition ret {S A : Type} (a : A) : M S A := fun s => (a, s).

Definition bind {S A B : Type} (m : M S A) (k : A -> M S B) : M S B :=
  fun s => let '(a, s1) := m s in k a s1.

(** Left-to-right evaluation of a sequence of expressions whose order is
    fixed by the language: the elements of a braced initializer list
    ([swallow{ e1, e2, ... }]) are evaluated in the order they appear. *)
Fixpoint seq_ltr {S T : Type} (es : list (M S T)) : M S (list T) :=
  match es with
  | [] => ret []
  | e :: es' => bind e (fun v => bind (seq_ltr es') (fun vs => ret (v :: vs)))
  end.

End StateM.

Import StateM.

(* ================================================================= *)
(** ** by.hpp *)

Module By.

Section ByAdaptor.

Context {S A B R : Type}.

(** [detail::project_eval]: a deferred application of the projection to
    one (forwarded) argument; [operator()] evaluates [p(x)]. *)
Record project_eval := {
  pe_x : A;
  pe_p : A -> M S B
}.

Definition make_project_eval (x : A) (p : A -> M S B) : project_eval :=
  {| pe_x := x; pe_p := p |}.

Definition project_eval_call (e : project_eval) : M S B := pe_p e (pe_x e).

(** Modelled from the spec: [fit::apply_eval] (apply_eval.hpp is not among
    the sources).  It evaluates its deferred arguments in order from left
    to right ("argument evaluation order for multi-argument projections
    must be left-to-right"; by.hpp: "All projections are always evaluated
    in order from left-to-right") and then calls [f] with the results. *)
Definition apply_eval (f : list B -> M S R) (es : list project_eval) : M S R :=
  bind (seq_ltr (map project_eval_call es)) f.

(** [detail::by_eval] *)
Definition by_eval (p : A -> M S B) (f : list B -> M S R) (xs : list A)
  : M S R :=
  apply_eval f (map (fun x => make_project_eval x p) xs).

(** [by_adaptor<Projection, F>]: a compressed pair of the projection
    ([first]) and the function ([second]). *)
Record by_adaptor := {
  base_projection : A -> M S B;
  base_function : list B -> M S R
}.

(** [fit::by(p, f)]; [by] is a keyword here. *)
Definition fit_by (p : A -> M S B) (f : list B -> M S R) : by_adaptor :=
  {| base_projection := p; base_function := f |}.

(** [by_adaptor<Projection, F>::operator() const] *)
Definition by_call (a : by_adaptor) (xs : list A) : M S R :=
  by_eval (base_projection a) (base_function a) xs.

(** [by_adaptor<Projection, void>]: only a projection. *)
Record by_adaptor_void := {
  base_projection_v : A -> M S B
}.

(** [fit::by(p)] *)
Definition by1 (p : A -> M S B) : by_adaptor_void :=
  {| base_projection_v := p |}.

(** [by_adaptor<Projection, void>::operator() const] on the path with
    ordered brace initialisation:
    [detail::swallow{ (this->base_projection(xs...)(FIT_FORWARD(Ts)(xs)), 0)... };]
    each element of the braced list calls the projection and yields [0];
    the [swallow] object is discarded and the operator returns [void]. *)
Definition by_void_call (a : by_adaptor_void) (xs : list A) : M S unit :=
  bind (seq_ltr (map (fun x => bind (base_projection_v a x) (fun _ => ret 0%Z)) xs))
       (fun _swallow => ret tt).

End ByAdaptor.

End By.

(* ================================================================= *)
(** ** Outcome of a call expression

    A call of an adaptor either is not viable (the call operator is
    removed from overload resolution by its constraint), or it is viable
    but its body does not compile (a hard error while instantiating the
    body), or it compiles and returns a value. *)

Inductive call_result (V : Type) : Type :=
| NotViable : call_result V
| HardError : call_result V
| Returns : V -> call_result V.

Arguments NotViable {V}.
Arguments HardError {V}.
Arguments Returns {V} _.

(* ================================================================= *)
(** ** construct.hpp *)

Module Construct.

(** What construct_f needs to know about a class [T] constructed from
    arguments of type [A]: its constructors ([None] when [T] is not
    constructible from the arguments: [FIT_ENABLE_IF_CONSTRUCTIBLE]),
    whether it is a literal type ([FIT_IS_LITERAL]), and its copy
    constructor ([None] when it is deleted, as for move-only types). *)
Record cpp_class (A T : Type) := {
  ctor : list A -> option T;
  is_literal : bool;
  copy_ctor : option (T -> T)
}.

Arguments ctor {A T} _ _.
Arguments is_literal {A T} _.
Arguments copy_ctor {A T} _.

(** [detail::construct_f<T>]: an empty function object; the class it
    constructs is its template parameter. *)
Record construct_f (A T : Type) := {
  construct_type : cpp_class A T
}.

Arguments construct_type {A T} _.

(** [fit::construct<T>()] *)
Definition construct {A T : Type} (c : cpp_class A T) : construct_f A T :=
  {| construct_type := c |}.

(** [construct_f<T>::operator()(Ts&&... xs) const].
    - the literal specialisation returns [T(FIT_FORWARD(Ts)(xs)...)];
    - the primary template constructs [T] with placement new into a
      local buffer and returns [h.data()], an lvalue [T&]: the return
      value is copy-initialised from it with [T]'s copy constructor
      (a hard error when the copy constructor is deleted); then
      [~storage_holder] destroys the buffer's object. *)
Definition construct_f_call {A T : Type} (cf : construct_f A T) (xs : list A)
  : call_result T :=
  let c := construct_type cf in
  match ctor c xs with
  | None => NotViable
  | Some obj =>
      if is_literal c then Returns obj
      else match copy_ctor c with
           | Some copy => Returns (copy obj)
           | None => HardError
           end
  end.

(** [std::unique_ptr<int>]: holds a pointer (a heap address, [None] for
    null), constructible from one pointer, not a literal type (its
    destructor is not trivial), and move-only. *)
Definition unique_ptr_int : cpp_class (option nat) (option nat) :=
  {| ctor := fun xs => match xs with [p] => Some p | _ => None end;
     is_literal := false;
     copy_ctor := None |}.

(** [std::vector<int>] built from [(count, value)]: not a literal type,
    copyable. *)
Definition vector_int : cpp_class Z (list Z) :=
  {| ctor := fun xs => match xs with
                       | [n; v] => Some (repeat v (Z.to_nat n))
                       | _ => None
                       end;
     is_literal := false;
     copy_ctor := Some (fun l => l) |}.

End Construct.

(* ================================================================= *)
(** ** protect.hpp *)

Module Protect.

(** [protect_adaptor<F>] derives from [detail::callable_base<F>] and
    inherits its constructors; it declares no call operator of its own,
    so the call operators are those of the wrapped [F]. *)
Record protect_adaptor (F : Type) := {
  protect_base : F
}.

Arguments protect_base {F} _.

(** [fit::protect(f)] *)
Definition protect {F : Type} (f : F) : protect_adaptor F :=
  {| protect_base := f |}.

(** The inherited call operator, on a callable with side effects. *)
Definition protect_call {S A R : Type} (pa : protect_adaptor (list A -> M S R))
  (xs : list A) : M S R :=
  protect_base pa xs.

(** The type of a callable, as the deferred-evaluation machinery of
    [bind] and [lazy] sees it. *)
Inductive callable_type :=
| CT_lazy_invoker : callable_type -> callable_type
| CT_protect_adaptor : callable_type -> callable_type
| CT_class : nat -> callable_type.

(** [protect(f)] has type [protect_adaptor<F>]. *)
Definition protect_type (t : callable_type) : callable_type := CT_protect_adaptor t.

(** Modelled from the spec: the "compile-time tag/trait indicating whether
    a wrapped expression should be treated as a deferred (lazy/bind)
    expression" (lazy.hpp and bind are not among the sources).  The trait
    is specialised for the types of deferred expressions, the lazy
    invokers; a class with no specialisation, such as [protect_adaptor],
    is not a bind expression. *)
Definition is_bind_expression (t : callable_type) : bool :=
  match t with
  | CT_lazy_invoker _ => true
  | CT_protect_adaptor _ => false
  | CT_class _ => false
  end.

End Protect.

(* ================================================================= *)
(** ** indirect.hpp and the mutable function object of its test *)

Module Indirect.

(** Heap addresses. *)
Definition loc := nat.

(** The pointer-like objects [indirect] is constructed from: a raw
    pointer [&f], a [std::shared_ptr] or a [std::unique_ptr]. *)
Inductive pointer :=
| RawPtr : loc -> pointer
| SharedPtr : loc -> pointer
| UniquePtr : loc -> pointer.

(** [*p] *)
Definition deref (p : pointer) : loc :=
  match p with
  | RawPtr l => l
  | SharedPtr l => l
  | UniquePtr l => l
  end.

Section IndirectCall.

(** Objects of class [O] with a (possibly non-const) call operator taking
    [Args] and returning [R]; the call may update the object. *)
Context {O Args R : Type} (call_op : O -> Args -> R * O).

(** [( *p)(xs...)]: the object stored at [l] is called in place; a
    missing object (null or dangling pointer) has no defined result. *)
Definition invoke_at (l : loc) (xs : Args) (h : gmap loc O)
  : option (R * gmap loc O) :=
  match h !! l with
  | Some o => let '(r, o') := call_op o xs in Some (r, <[l := o']> h)
  | None => None
  end.

(** Modelled from the spec: [indirect_adaptor] (indirect.hpp is not among
    the sources).  The spec: the wrapped callable is "held by ...
    smart-pointer-like indirection", and [indirect(&f)(xs...) ==
    ( *&f)(xs...)].  The adaptor holds the pointer; its call operator
    dereferences it and calls the pointee. *)
Record indirect_adaptor := {
  indirect_ptr : pointer
}.

Definition indirect (p : pointer) : indirect_adaptor := {| indirect_ptr := p |}.

Definition indirect_call (a : indirect_adaptor) (xs : Args) (h : gmap loc O)
  : option (R * gmap loc O) :=
  invoke_at (deref (indirect_ptr a)) xs h.

End IndirectCall.

Section IndirectCallUB.

(** Call operators whose behaviour can be undefined (for instance by a
    signed overflow): [None] is undefined behaviour. *)
Context {O Args R : Type} (call_op : O -> Args -> option (R * O)).

(** [( *p)(xs...)] with such a call operator: undefined when the pointer
    has no object or the call is undefined. *)
Definition invoke_at_ub (l : loc) (xs : Args) (h : gmap loc O)
  : option (R * gmap loc O) :=
  match h !! l with
  | Some o =>
      match call_op o xs with
      | Some (r, o') => Some (r, <[l := o']> h)
      | None => None
      end
  | None => None
  end.

(** [indirect_adaptor::operator()] on such a call operator (modelled
    from the spec, as [indirect_call]). *)
Definition indirect_call_ub (a : indirect_adaptor) (xs : Args) (h : gmap loc O)
  : option (R * gmap loc O) :=
  invoke_at_ub (deref (indirect_ptr a)) xs h.

End IndirectCallUB.

(** A heap holding one object [o] at [l]. *)
Definition single_object {O : Type} (l : loc) (o : O) : gmap loc O := {[ l := o ]}.

(** The range of a 32-bit [int]. *)
Definition int_min : Z := (- 2 ^ 31)%Z.
Definition int_max : Z := (2 ^ 31 - 1)%Z.

Definition in_int_range (z : Z) : bool := (int_min <=? z)%Z && (z <=? int_max)%Z.

(** [struct mutable_function] of test/indirect.cpp: [int value;]. *)
Record mutable_function := {
  value : Z
}.

(** [mutable_function() : value(0) {}] *)
Definition mutable_function_new : mutable_function := {| value := 0 |}.

(** [void operator()(int a) { value += a; }] (non-const).  The sum of
    two [int]s that leaves the [int] range is a signed overflow, which
    is undefined behaviour ([None]). *)
Definition mutable_function_call (mf : mutable_function) (a : Z)
  : option (unit * mutable_function) :=
  if in_int_range (value mf + a) then Some (tt, {| value := value mf + a |})
  else None.

(** [struct binary_class] of the tests: [x + y]. *)
Record binary_class := {}.

Definition binary_class_call (b : binary_class) (xy : Z * Z) : Z * binary_class :=
  (fst xy + snd xy, b)%Z.

End Indirect.

(* ================================================================= *)
(** ** Constraints of the call operators (overload resolution)

    Argument types and call operators are modelled at the level of types:
    a class type has a set of const-qualified and a set of non-const
    call operators, each a partial map from argument types to a result
    type.  [detail::callable_base<F>] is taken to be [F] itself for class
    types. *)

Module Typing.

Inductive ty :=
| TInt
| TString
| TVoid
| TClass : nat -> ty.

Record callable_class := {
  op_const : list ty -> option ty;
  op_nonconst : list ty -> option ty
}.

(** The result type of [f(ts...)] where [f] is an object of class [c];
    [is_const] says whether the object expression is const.  A const
    object only has its const call operators; a non-const object uses a
    viable non-const operator and falls back on the const ones. *)
Definition invoke (c : callable_class) (is_const : bool) (ts : list ty)
  : option ty :=
  if is_const then op_const c ts
  else match op_nonconst c ts with
       | Some r => Some r
       | None => op_const c ts
       end.

Definition viable (o : option ty) : bool :=
  match o with Some _ => true | None => false end.

(** [by_adaptor<Projection, F>::operator()]: its return type is
    [FIT_SFINAE_RESULT(const callable_base<F>&,
    result_of<const callable_base<Projection>&, id_<Ts>>...)], and the
    body ([by_eval]) calls the same const objects; no part of the body
    is checked apart from the constraint. *)
Definition by_call_ty (P F : callable_class) (ts : list ty) : call_result ty :=
  match mapM (fun t => invoke P true [t]) ts with
  | Some rs =>
      match invoke F true rs with
      | Some r => Returns r
      | None => NotViable
      end
  | None => NotViable
  end.

(** [by_adaptor<Projection, void>::operator()]: the constraint is
    [detail::holder<decltype(std::declval<Projection>()(std::declval<Ts>()))...>]
    (a non-const [Projection] rvalue); the body calls
    [this->base_projection(xs...)], a [const callable_base<Projection>&]. *)
Definition by_void_call_ty (P : callable_class) (ts : list ty) : call_result ty :=
  if forallb (fun t => viable (invoke P false [t])) ts then
    if forallb (fun t => viable (invoke P true [t])) ts then Returns TVoid
    else HardError
  else NotViable.

(** The same adaptor with a constraint on the const projection the body
    calls, as [by_adaptor<Projection, F>] does. *)
Definition by_void_call_ty_const (P : callable_class) (ts : list ty)
  : call_result ty :=
  if forallb (fun t => viable (invoke P true [t])) ts then Returns TVoid
  else NotViable.

(** [protect_adaptor<F>]: the inherited call operators of [F]. *)
Definition protect_call_ty (F : callable_class) (is_const : bool) (ts : list ty)
  : call_result ty :=
  match invoke F is_const ts with
  | Some r => Returns r
  | None => NotViable
  end.

(** A projection with [int operator()(int) const] and a non-const
    [int operator()(std::string)]. *)
Definition mixed_projection : callable_class :=
  {| op_const := fun ts => match ts with [TInt] => Some TInt | _ => None end;
     op_nonconst := fun ts => match ts with [TString] => Some TInt | _ => None end |}.

(** A function [f] with [int operator()(int, int) const]. *)
Definition plus_function : callable_class :=
  {| op_const := fun ts => match ts with [TInt; TInt] => Some TInt | _ => None end;
     op_nonconst := fun _ => None |}.

End Typing.

(* ================================================================= *)
(** ** by(p) without ordered brace initialisation *)

Module ByVoidEval.

Section ByVoidEval.

Context {S A B : Type}.

(** [detail::project_void_eval::void_] *)
Inductive void_ := void_value.

(** [detail::make_project_void_eval(x, p)]: a deferred application whose
    [operator()] is [return p(FIT_FORWARD(T)(x)), void_();]: it calls the
    projection, drops its result and yields a [void_].  It is a
    [project_eval] thunk holding [x] and this evaluation. *)
Definition make_project_void_eval (x : A) (p : A -> M S B)
  : By.project_eval (S := S) (A := A) (B := void_) :=
  By.make_project_eval x (fun y => bind (p y) (fun _ => ret void_value)).

(** Modelled from the spec: [fit::always()] with no value (always.hpp is not
    among the sources; the spec lists [always] among the adaptors).  by.hpp
    uses it as the function that [by_void_eval] applies to the [void_]
    results, with return type [FIT_ALWAYS_VOID_RETURN]: it ignores its
    arguments and returns void. *)
Definition always_void (_ : list void_) : M S unit := ret tt.

(** [detail::by_void_eval(p, xs...)]:
    [fit::apply_eval(fit::always(), detail::make_project_void_eval(FIT_FORWARD(Ts)(xs), p)...)],
    the body of [by_adaptor<Projection, void>::operator()] when
    [FIT_NO_ORDERED_BRACE_INIT] is set. *)
Definition by_void_eval (p : A -> M S B) (xs : list A) : M S unit :=
  By.apply_eval always_void (map (fun x => make_project_void_eval x p) xs).

End ByVoidEval.

End ByVoidEval.

(* ================================================================= *)
(** ** Adaptor objects in memory

    To follow what a call does to the adaptor object itself, the
    adaptors live in a memory of objects, and their call operators run
    on the object at [this].  An adaptor object holds its wrapped
    callables (as base-class subobjects); they are named here by an
    index, and their calls are given by environments that act on the
    whole memory (a wrapped callable may write through pointers it
    holds).  [construct_f] holds nothing; its construction buffer is a
    local variable of the call operator, outside this memory. *)

Module AdaptorObjects.

Inductive obj :=
| O_by (proj fn : nat)
| O_by_void (proj : nat)
| O_protect (fn : nat)
| O_construct
| O_int (v : Z).

Section CallsInMemory.

Context {A B R T : Type}.
Context (proj_env : nat -> A -> M (gmap nat obj) B).
Context (fn_env : nat -> list B -> M (gmap nat obj) R).
Context (pfn_env : nat -> list A -> M (gmap nat obj) R).

(** [this->operator()(xs...)] on a [by_adaptor<Projection, F>] at [this]:
    it reads its projection and function ([base_projection],
    [base_function]) and runs [by_eval] on the memory.  [None]: there is
    no such adaptor at [this]. *)
Definition by_call_at (this : nat) (xs : list A) (h : gmap nat obj)
  : option (R * gmap nat obj) :=
  match h !! this with
  | Some (O_by pid fid) => Some (By.by_call (By.fit_by (proj_env pid) (fn_env fid)) xs h)
  | _ => None
  end.

(** The same for [by_adaptor<Projection, void>]. *)
Definition by_void_call_at (this : nat) (xs : list A) (h : gmap nat obj)
  : option (unit * gmap nat obj) :=
  match h !! this with
  | Some (O_by_void pid) => Some (By.by_void_call (By.by1 (proj_env pid)) xs h)
  | _ => None
  end.

(** The same for [protect_adaptor<F>]. *)
Definition protect_call_at (this : nat) (xs : list A) (h : gmap nat obj)
  : option (R * gmap nat obj) :=
  match h !! this with
  | Some (O_protect fid) => Some (Protect.protect_call (Protect.protect (pfn_env fid)) xs h)
  | _ => None
  end.

(** The same for [construct_f<T>]. *)
Definition construct_call_at (c : Construct.cpp_class A T) (this : nat) (xs : list A)
  (h : gmap nat obj) : option (call_result T * gmap nat obj) :=
  match h !! this with
  | Some O_construct => Some (Construct.construct_f_call (Construct.construct c) xs, h)
  | _ => None
  end.

End CallsInMemory.

End AdaptorObjects.

(* ================================================================= *)
(** ** Tests on concrete inputs *)

Module Tests.

(** A projection that records its argument in a log and returns its
    double; [by(p, sum)] over [1, 2, 3]. *)
Definition log_double (x : Z) : M (list Z) Z := fun log => (2 * x, log ++ [x])%Z.
Definition sum_list (ys : list Z) : M (list Z) Z := ret (fold_right Z.add 0 ys)%Z.

Example by_log_order :
  By.by_call (By.fit_by log_double sum_list) [1; 2; 3]%Z [] = (12%Z, [1; 2; 3]%Z).
Proof. reflexivity. Qed.

Example by_void_log_order :
  By.by_void_call (By.by1 log_double) [4; 5; 6]%Z [] = (tt, [4; 5; 6]%Z).
Proof. reflexivity. Qed.

Example construct_vector :
  Construct.construct_f_call (Construct.construct Construct.vector_int) [5; 5]%Z
  = Returns [5; 5; 5; 5; 5]%Z.
Proof. reflexivity. Qed.

Example indirect_binary :
  Indirect.indirect_call Indirect.binary_class_call
    (Indirect.indirect (Indirect.RawPtr 0)) (1, 2)%Z {[ 0 := Indirect.Build_binary_class ]}
  = Some (3%Z, {[ 0 := Indirect.Build_binary_class ]}).
Proof. reflexivity. Qed.

(** Callables for adaptors stored in memory: a projection that records
    its argument in the cell [1], a function that records its result in
    the cell [2], a protected function that records the argument count in
    the cell [3]; [by_heap] holds a [by_adaptor] in the cell [0]. *)
Definition proj_mark (id : nat) (x : Z) : M (gmap nat AdaptorObjects.obj) Z :=
  fun h => ((x + Z.of_nat id)%Z, <[1%nat := AdaptorObjects.O_int x]> h).
Definition fn_mark (id : nat) (ys : list Z) : M (gmap nat AdaptorObjects.obj) Z :=
  fun h => (fold_right Z.add 0%Z ys, <[2%nat := AdaptorObjects.O_int (fold_right Z.add 0%Z ys)]> h).
Definition pfn_mark (id : nat) (xs : list Z) : M (gmap nat AdaptorObjects.obj) Z :=
  fun h => (Z.of_nat (length xs), <[3%nat := AdaptorObjects.O_int (Z.of_nat (length xs))]> h).
Definition by_heap : gmap nat AdaptorObjects.obj :=
  {[ 0%nat := AdaptorObjects.O_by 0 0 ]}.

End Tests.

(* ================================================================= *)
(** ** Lemmas on left-to-right sequencing *)

Section SeqLemmas.

Context {S T : Type}.

Lemma seq_ltr_app (l1 l2 : list (M S T)) (s : S) :
  seq_ltr (l1 ++ l2) s =
  (let '(v1, s1) := seq_ltr l1 s in
   let '(v2, s2) := seq_ltr l2 s1 in
   (v1 ++ v2, s2)).
Proof.
  revert s; induction l1 as [|e l1 IH]; intros s; simpl.
  - unfold ret. destruct (seq_ltr l2 s); reflexivity.
  - unfold bind, ret. destruct (e s) as [v s1].
    rewrite IH. destruct (seq_ltr l1 s1) as [v1 s2].
    destruct (seq_ltr l2 s2) as [v2 s3]. reflexivity.
Qed.

Lemma seq_ltr_pure {A : Type} (g : A -> T) (xs : list A) (s : S) :
  seq_ltr (map (fun x => ret (g x)) xs) s = (map g xs, s).
Proof.
  revert s; induction xs as [|x xs IH]; intros s; simpl; [reflexivity|].
  unfold bind at 1; unfold ret at 1. unfold bind. rewrite IH. reflexivity.
Qed.

End SeqLemmas.

Lemma seq_ltr_discard {S A B : Type} (p : A -> M S B) (xs : list A) (s : S) :
  snd (seq_ltr (map (fun x => bind (p x) (fun _ => ret 0%Z)) xs) s) =
  fold_left (fun s x => snd (p x s)) xs s.
Proof.
  revert s; induction xs as [|x xs IH]; intros s; simpl; [reflexivity|].
  unfold bind, ret. destruct (p x s) as [b s1]. simpl.
  specialize (IH s1). destruct (seq_ltr _ s1) as [vs s2]. simpl in *. exact IH.
Qed.

Lemma map_project_eval {S A B : Type} (p : A -> M S B) (xs : list A) :
  map By.project_eval_call (map (fun x => By.make_project_eval x p) xs) = map p xs.
Proof. rewrite map_map. reflexivity. Qed.

(* ================================================================= *)
(** ** by: call-through, order of evaluation, the projection-only form *)

(** C1: for a projection [p] and a function [f], [by(p, f)(xs...)] returns
    [f(p(xs)...)]: the same projection is applied to each argument and
    [f] is called on the projected arguments.  [p] has no side effects
    (with side effects, the order in which C++ evaluates the arguments of
    the direct call [f(p(xs)...)] is unspecified); [f] may have any. *)
Theorem by_call_through {S A B R : Type} (p : A -> B) (f : list B -> M S R)
  (xs : list A) (s : S) :
  By.by_call (By.fit_by (fun x => ret (p x)) f) xs s = f (map p xs) s.
Proof.
  unfold By.by_call, By.by_eval, By.apply_eval. simpl.
  rewrite map_project_eval. unfold bind. rewrite seq_ltr_pure. reflexivity.
Qed.

(** C4: in both [by(p, f)(xs...)] and [by(p)(xs...)], the projections
    are evaluated from left to right: for an argument [x] with the
    arguments [xs] before it and [ys] after it, [p(x)] runs in the state
    left by the projections of all of [xs], and the projections of [ys]
    run after it, in the state it leaves. *)
Theorem by_projections_left_to_right {S A B R : Type} (p : A -> M S B)
  (f : list B -> M S R) (xs : list A) (x : A) (ys : list A) (s : S) :
  By.by_call (By.fit_by p f) (xs ++ x :: ys) s =
    (let '(bs, s1) := seq_ltr (map p xs) s in
     let '(b, s2) := p x s1 in
     let '(cs, s3) := seq_ltr (map p ys) s2 in
     f (bs ++ b :: cs) s3)
  /\
  By.by_void_call (By.by1 p) (xs ++ x :: ys) s =
    (tt, fold_left (fun s y => snd (p y s)) ys
           (snd (p x (fold_left (fun s y => snd (p y s)) xs s)))).
Proof.
  split.
  - unfold By.by_call, By.by_eval, By.apply_eval. simpl.
    rewrite map_project_eval, map_app. unfold bind at 1.
    rewrite seq_ltr_app. destruct (seq_ltr (map p xs) s) as [bs s1].
    simpl. unfold bind at 1. destruct (p x s1) as [b s2].
    unfold bind, ret. destruct (seq_ltr (map p ys) s2) as [cs s3].
    reflexivity.
  - unfold By.by_void_call. simpl. unfold bind at 1.
    pose proof (seq_ltr_discard p (xs ++ x :: ys) s) as H.
    destruct (seq_ltr _ s) as [zs s']. simpl in H.
    unfold ret. rewrite H, fold_left_app. reflexivity.
Qed.

(** C9: [by(p)(xs...)] calls [p] once on each argument, from left to
    right, discards the results and returns [void]: its effect is the
    composition, in argument order, of the effects of [p(x1)], [p(x2)],
    ...  (This holds for every argument list, empty or not.) *)
Theorem by_void_calls_each_once {S A B : Type} (p : A -> M S B) (xs : list A)
  (s : S) :
  By.by_void_call (By.by1 p) xs s = (tt, fold_left (fun s x => snd (p x s)) xs s).
Proof.
  unfold By.by_void_call. simpl. unfold bind at 1.
  pose proof (seq_ltr_discard p xs s) as H.
  destruct (seq_ltr _ s) as [zs s']. simpl in H. unfold ret. rewrite H. reflexivity.
Qed.

(* ================================================================= *)
(** ** protect *)

(** C6: [protect(f)(xs...)] behaves as [f(xs...)] in every state, with
    the same result and the same effects; [protect] changes only the
    type, and no [protect_adaptor<F>] is a bind expression, even when
    [F] is one. *)
Theorem protect_transparent {S A R : Type} (f : list A -> M S R) (xs : list A)
  (s : S) (t : Protect.callable_type) :
  Protect.protect_call (Protect.protect f) xs s = f xs s
  /\ Protect.is_bind_expression (Protect.protect_type t) = false.
Proof. split; reflexivity. Qed.

(* ================================================================= *)
(** ** construct *)

(** When [T] is constructible from [xs] and [construct_f] returns, the
    value it returns is [T(xs...)] for a literal type and a copy of it
    otherwise; a copy constructor that preserves the value gives back
    [T(xs...)] itself. *)
Lemma construct_f_call_returns {A T : Type} (c : Construct.cpp_class A T)
  (xs : list A) (obj : T) :
  Construct.ctor c xs = Some obj ->
  (Construct.is_literal c = true \/
   exists copy, Construct.copy_ctor c = Some copy /\ copy obj = obj) ->
  Construct.construct_f_call (Construct.construct c) xs = Returns obj.
Proof.
  intros Hc Hlit. unfold Construct.construct_f_call. simpl. rewrite Hc.
  destruct Hlit as [Hl | (copy & Hcp & Hobj)].
  - rewrite Hl. reflexivity.
  - destruct (Construct.is_literal c); [reflexivity|]. rewrite Hcp, Hobj. reflexivity.
Qed.

(** C2: [construct<std::unique_ptr<int>>()(new int(5))]: [unique_ptr<int>]
    is constructible from an [int*], but it is not a literal type, so the
    primary [construct_f] is used, whose [return h.data();] copies from
    an lvalue; the copy constructor of [unique_ptr] is deleted, so the
    call is a compile error instead of returning
    [std::unique_ptr<int>(new int(5))]. *)
Theorem construct_move_only_hard_error :
  Construct.ctor Construct.unique_ptr_int [Some 5] = Some (Some 5)
  /\ Construct.construct_f_call (Construct.construct Construct.unique_ptr_int) [Some 5]
     = HardError.
Proof. split; reflexivity. Qed.

(* ================================================================= *)
(** ** indirect *)

(** C3: [indirect(p)(xs...)], for a raw, shared or unique pointer [p] to
    an object [f], returns what calling the pointee in place,
    [( *p)(xs...)], returns, with the same effect on the pointee. *)
Theorem indirect_call_through {O Args R : Type} (call_op : O -> Args -> R * O)
  (p : Indirect.pointer) (xs : Args) (h : gmap Indirect.loc O) (f : O) :
  h !! Indirect.deref p = Some f ->
  Indirect.indirect_call call_op (Indirect.indirect p) xs h
    = Indirect.invoke_at call_op (Indirect.deref p) xs h
  /\ Indirect.indirect_call call_op (Indirect.indirect p) xs h
    = Some (fst (call_op f xs), <[Indirect.deref p := snd (call_op f xs)]> h).
Proof.
  intros Hf. split; [reflexivity|].
  unfold Indirect.indirect_call, Indirect.invoke_at. simpl. rewrite Hf.
  destruct (call_op f xs) as [r o']. reflexivity.
Qed.

Lemma indirect_call_through_witness :
  (Indirect.single_object 0 Indirect.Build_binary_class) !! Indirect.deref (Indirect.RawPtr 0)
    = Some Indirect.Build_binary_class
  /\ Indirect.indirect_call Indirect.binary_class_call
       (Indirect.indirect (Indirect.RawPtr 0)) (1, 2)%Z
       (Indirect.single_object 0 Indirect.Build_binary_class)
     = Some (fst (Indirect.binary_class_call Indirect.Build_binary_class (1, 2)%Z),
             <[Indirect.deref (Indirect.RawPtr 0) :=
                 snd (Indirect.binary_class_call Indirect.Build_binary_class (1, 2)%Z)]>
               (Indirect.single_object 0 Indirect.Build_binary_class)).
Proof.
  split; [reflexivity|].
  apply (indirect_call_through Indirect.binary_class_call (Indirect.RawPtr 0) (1, 2)%Z
           (Indirect.single_object 0 Indirect.Build_binary_class) Indirect.Build_binary_class).
  reflexivity.
Defined.

(* ================================================================= *)
(** ** Constraints of the call operators *)

(** [by(p, f)] and [protect(f)]: when the wrapped callables are not
    invocable as the call operator invokes them, the call operator is
    not viable. *)
Lemma by_call_ty_not_invocable (P F : Typing.callable_class) (ts : list Typing.ty) :
  (mapM (fun t => Typing.invoke P true [t]) ts = None \/
   exists rs, mapM (fun t => Typing.invoke P true [t]) ts = Some rs
              /\ Typing.invoke F true rs = None) ->
  Typing.by_call_ty P F ts = NotViable.
Proof.
  unfold Typing.by_call_ty. intros [H | (rs & H & HF)]; rewrite H; [reflexivity|].
  rewrite HF. reflexivity.
Qed.

Lemma protect_call_ty_not_invocable (F : Typing.callable_class) (c : bool)
  (ts : list Typing.ty) :
  Typing.invoke F c ts = None -> Typing.protect_call_ty F c ts = NotViable.
Proof. unfold Typing.protect_call_ty. intros H. rewrite H. reflexivity. Qed.

(** C5: [by(p)(std::string("a"))] with a projection [p] whose only call
    operator for a [std::string] is non-const.  The call operator of
    [by_adaptor<Projection, void>] is constrained on a non-const
    [Projection] rvalue, which is invocable with a string, so it stays
    in overload resolution; its body calls the const
    [callable_base<Projection>&], which is not invocable with a string:
    the call is a hard error inside the body.  [by(p, f)], which
    constrains on the const projection, and the same constraint on the
    const projection for [by(p)], remove the call operator instead. *)
Theorem by_void_constraint_hard_error (F : Typing.callable_class) :
  Typing.invoke Typing.mixed_projection true [Typing.TString] = None
  /\ Typing.invoke Typing.mixed_projection false [Typing.TString] = Some Typing.TInt
  /\ Typing.by_void_call_ty Typing.mixed_projection [Typing.TString] = HardError
  /\ Typing.by_call_ty Typing.mixed_projection F [Typing.TString] = NotViable
  /\ Typing.by_void_call_ty_const Typing.mixed_projection [Typing.TString] = NotViable.
Proof. repeat split. Qed.

(* ================================================================= *)
(** ** Further properties of the adaptors *)

Lemma seq_ltr_state {S A B : Type} (p : A -> M S B) (xs : list A) (s : S) :
  snd (seq_ltr (map p xs) s) = fold_left (fun s x => snd (p x s)) xs s.
Proof.
  revert s; induction xs as [|x xs IH]; intros s; simpl; [reflexivity|].
  unfold bind, ret. destruct (p x s) as [b s1]. simpl.
  specialize (IH s1). destruct (seq_ltr (map p xs) s1) as [bs s2]. exact IH.
Qed.

(** With no arguments, [by(p, f)()] calls [f()] and never the projection;
    [by(p)()] does nothing and returns [void].  At the level of types,
    [by(p, f)()] is viable exactly when [f()] is, and [by(p)()] is always
    viable. *)
Theorem by_empty_arguments {S A B R : Type} (p : A -> M S B) (f : list B -> M S R)
  (s : S) (P F : Typing.callable_class) :
  By.by_call (By.fit_by p f) [] s = f [] s
  /\ By.by_void_call (By.by1 p) [] s = (tt, s)
  /\ Typing.by_call_ty P F [] =
       match Typing.invoke F true [] with Some r => Returns r | None => NotViable end
  /\ Typing.by_void_call_ty P [] = Returns Typing.TVoid.
Proof.
  repeat split.
Qed.

(** [by(p, f)(xs...)] calls [f] once, on the projected values, in the
    state left by applying the projection once to each argument, from
    left to right. *)
Theorem by_call_f_after_projections {S A B R : Type} (p : A -> M S B)
  (f : list B -> M S R) (xs : list A) (s : S) :
  By.by_call (By.fit_by p f) xs s =
  f (fst (seq_ltr (map p xs) s)) (fold_left (fun s x => snd (p x s)) xs s).
Proof.
  unfold By.by_call, By.by_eval, By.apply_eval. simpl.
  rewrite map_project_eval. unfold bind.
  rewrite <- seq_ltr_state. destruct (seq_ltr (map p xs) s); reflexivity.
Qed.

(** Nesting: [by(p, by(q, f))(xs...)] first projects every argument with
    [p], from left to right, then projects every result with [q], from
    left to right, then calls [f]. *)
Theorem by_nested_projections {S A B C R : Type} (p : A -> M S B) (q : B -> M S C)
  (f : list C -> M S R) (xs : list A) (s : S) :
  By.by_call (By.fit_by p (By.by_call (By.fit_by q f))) xs s =
    (let '(bs, s1) := seq_ltr (map p xs) s in
     let '(cs, s2) := seq_ltr (map q bs) s1 in
     f cs s2).
Proof.
  unfold By.by_call at 1, By.by_eval, By.apply_eval. simpl.
  rewrite map_project_eval. unfold bind at 1.
  destruct (seq_ltr (map p xs) s) as [bs s1].
  unfold By.by_call, By.by_eval, By.apply_eval. simpl.
  rewrite map_project_eval. reflexivity.
Qed.

(** For projections without side effects, [by(p, by(q, f))] and
    [by(q o p, f)] are the same function. *)
Theorem by_nested_pure_compose {S A B C R : Type} (p : A -> B) (q : B -> C)
  (f : list C -> M S R) (xs : list A) (s : S) :
  By.by_call (By.fit_by (fun x => ret (p x)) (By.by_call (By.fit_by (fun y => ret (q y)) f))) xs s
  = By.by_call (By.fit_by (fun x => ret (q (p x))) f) xs s.
Proof. rewrite !by_call_through, map_map. reflexivity. Qed.

(** The two bodies of [by_adaptor<Projection, void>::operator()] agree:
    with [FIT_NO_ORDERED_BRACE_INIT], [by_void_eval] (through
    [apply_eval] and [always()]) has the same effects and result as the
    braced-initializer [swallow] of the default path. *)
Theorem by_void_eval_agrees {S A B : Type} (p : A -> M S B) (xs : list A) (s : S) :
  ByVoidEval.by_void_eval p xs s = By.by_void_call (By.by1 p) xs s.
Proof.
  rewrite by_void_calls_each_once.
  unfold ByVoidEval.by_void_eval, By.apply_eval.
  rewrite map_map. simpl. unfold bind at 1.
  pose proof (seq_ltr_state (fun x => bind (p x) (fun _ => ret ByVoidEval.void_value)) xs s)
    as H.
  destruct (seq_ltr _ s) as [vs s'] eqn:E. simpl in H.
  unfold ByVoidEval.always_void, ret. rewrite H. f_equal.
  clear. revert s. induction xs as [|x xs IH]; intros s; simpl; [reflexivity|].
  rewrite IH. unfold bind. destruct (p x s); reflexivity.
Qed.

(* ================================================================= *)
(** ** indirect on the mutable function object of the tests *)

(** C10: [indirect] does not copy the pointee: two calls
    [indirect(p)(a); indirect(p)(b);] on a [mutable_function] reached
    through a raw or shared (or unique) pointer [p] add [a] and then [b]
    to the [value] of the original object, leave every other object as
    it was, and the adaptor keeps the pointer it was given.  The sums
    [v + a] and [v + a + b] stay in the [int] range (otherwise [value +=
    a] overflows, which is undefined).  From [mutable_function{}]
    (value 0) with [a = 15], [b = 2], the value becomes 17. *)
Theorem indirect_effects_accumulate (p : Indirect.pointer)
  (h : gmap Indirect.loc Indirect.mutable_function) (v a b : Z) :
  h !! Indirect.deref p = Some {| Indirect.value := v |} ->
  Indirect.in_int_range (v + a) = true ->
  Indirect.in_int_range (v + a + b) = true ->
  Indirect.indirect_ptr (Indirect.indirect p) = p
  /\
  match Indirect.indirect_call_ub Indirect.mutable_function_call
          (Indirect.indirect p) a h with
  | Some (_, h1) =>
      match Indirect.indirect_call_ub Indirect.mutable_function_call
              (Indirect.indirect p) b h1 with
      | Some (_, h2) =>
          h2 !! Indirect.deref p = Some {| Indirect.value := v + a + b |}
          /\ (forall l, l <> Indirect.deref p -> h2 !! l = h !! l)
      | None => False
      end
  | None => False
  end.
Proof.
  intros Hv Ha Hab. split; [reflexivity|].
  unfold Indirect.indirect_call_ub, Indirect.invoke_at_ub.
  cbn [Indirect.indirect Indirect.indirect_ptr]. rewrite Hv.
  unfold Indirect.mutable_function_call. cbn [Indirect.value]. rewrite Ha.
  rewrite lookup_insert_eq. cbn [Indirect.value]. rewrite Hab. split.
  - rewrite lookup_insert_eq. reflexivity.
  - intros l Hl. rewrite !lookup_insert_ne by congruence. reflexivity.
Qed.

Lemma indirect_effects_accumulate_witness :
  Indirect.single_object 0 Indirect.mutable_function_new !! Indirect.deref (Indirect.RawPtr 0)
    = Some {| Indirect.value := 0 |}
  /\ Indirect.in_int_range (0 + 15) = true
  /\ Indirect.in_int_range (0 + 15 + 2) = true
  /\ Indirect.indirect_ptr (Indirect.indirect (Indirect.RawPtr 0)) = Indirect.RawPtr 0
  /\
  match Indirect.indirect_call_ub Indirect.mutable_function_call
          (Indirect.indirect (Indirect.RawPtr 0)) 15%Z
          (Indirect.single_object 0 Indirect.mutable_function_new) with
  | Some (_, h1) =>
      match Indirect.indirect_call_ub Indirect.mutable_function_call
              (Indirect.indirect (Indirect.RawPtr 0)) 2%Z h1 with
      | Some (_, h2) =>
          h2 !! Indirect.deref (Indirect.RawPtr 0)
            = Some {| Indirect.value := 0 + 15 + 2 |}
          /\ (forall l, l <> Indirect.deref (Indirect.RawPtr 0) ->
                h2 !! l = Indirect.single_object 0 Indirect.mutable_function_new !! l)
      | None => False
      end
  | None => False
  end.
Proof.
  split; [reflexivity|]. split; [reflexivity|]. split; [reflexivity|].
  apply (indirect_effects_accumulate (Indirect.RawPtr 0)
           (Indirect.single_object 0 Indirect.mutable_function_new) 0 15 2);
    reflexivity.
Defined.

(** Calls through [indirect(p)] on a [mutable_function] compose: calling
    it with [a1], ..., [an] in turn, when every partial sum
    [v + a1 + ... + ak] stays in the [int] range, adds
    [a1 + ... + an] to the [value] of the pointee and changes nothing
    else in the heap. *)
Theorem indirect_mutable_calls_sum (p : Indirect.pointer)
  (h : gmap Indirect.loc Indirect.mutable_function) (v : Z) (args : list Z) :
  h !! Indirect.deref p = Some {| Indirect.value := v |} ->
  (forall k, (k <= length args)%nat ->
     Indirect.in_int_range (v + fold_right Z.add 0 (firstn k args))%Z = true) ->
  fold_left (fun oh a =>
               match oh with
               | Some h' => option_map snd
                   (Indirect.indirect_call_ub Indirect.mutable_function_call
                      (Indirect.indirect p) a h')
               | None => None
               end) args (Some h)
  = Some (<[Indirect.deref p := {| Indirect.value := v + fold_right Z.add 0 args |}]> h)%Z.
Proof.
  revert h v. induction args as [|a args IH]; intros h v Hv Hr;
    cbn [fold_left fold_right].
  - rewrite Z.add_0_r. f_equal. apply map_eq. intros l.
    destruct (decide (l = Indirect.deref p)) as [->|Hne].
    + rewrite lookup_insert_eq. exact Hv.
    + rewrite lookup_insert_ne by congruence. reflexivity.
  - assert (Ha : Indirect.in_int_range (v + a) = true).
    { specialize (Hr 1%nat). simpl in Hr. rewrite Z.add_0_r in Hr. apply Hr. lia. }
    replace (option_map snd (Indirect.indirect_call_ub Indirect.mutable_function_call
                (Indirect.indirect p) a h))
      with (Some (<[Indirect.deref p := {| Indirect.value := v + a |}]> h))%Z.
    + rewrite (IH _ (v + a)%Z).
      * rewrite insert_insert_eq. do 3 f_equal. lia.
      * apply lookup_insert_eq.
      * intros k Hk. rewrite <- Z.add_assoc.
        apply (Hr (S k)). simpl. lia.
    + unfold Indirect.indirect_call_ub, Indirect.invoke_at_ub.
      cbn [Indirect.indirect Indirect.indirect_ptr]. rewrite Hv.
      unfold Indirect.mutable_function_call. cbn [Indirect.value]. rewrite Ha.
      reflexivity.
Qed.

Lemma indirect_mutable_calls_sum_witness :
  Indirect.single_object 0 Indirect.mutable_function_new !! Indirect.deref (Indirect.RawPtr 0)
    = Some {| Indirect.value := 0 |}
  /\ (forall k, (k <= length [15; 2]%Z)%nat ->
        Indirect.in_int_range (0 + fold_right Z.add 0 (firstn k [15; 2]))%Z = true)
  /\
  fold_left (fun oh a =>
               match oh with
               | Some h' => option_map snd
                   (Indirect.indirect_call_ub Indirect.mutable_function_call
                      (Indirect.indirect (Indirect.RawPtr 0)) a h')
               | None => None
               end) [15; 2]%Z (Some (Indirect.single_object 0 Indirect.mutable_function_new))
  = Some (<[Indirect.deref (Indirect.RawPtr 0) :=
              {| Indirect.value := 0 + fold_right Z.add 0 [15; 2] |}%Z]>
            (Indirect.single_object 0 Indirect.mutable_function_new)).
Proof.
  assert (Hr : forall k, (k <= length [15; 2]%Z)%nat ->
        Indirect.in_int_range (0 + fold_right Z.add 0 (firstn k [15; 2]))%Z = true).
  { intros k Hk. simpl in Hk.
    destruct k as [|[|[|k]]]; [reflexivity|reflexivity|reflexivity|lia]. }
  split; [reflexivity|]. split; [exact Hr|].
  apply (indirect_mutable_calls_sum (Indirect.RawPtr 0)
           (Indirect.single_object 0 Indirect.mutable_function_new) 0%Z [15; 2]%Z);
    [reflexivity|exact Hr].
Defined.

(* ================================================================= *)
(** ** Invoking an adaptor does not change it *)

Section KeepsCell.

Context {T0 : Type} (this : nat).

Lemma seq_ltr_keeps_cell (es : list (M (gmap nat AdaptorObjects.obj) T0)) :
  Forall (fun e => forall h, snd (e h) !! this = h !! this) es ->
  forall h, snd (seq_ltr es h) !! this = h !! this.
Proof.
  induction 1 as [|e es He Hes IH]; intros h; [reflexivity|].
  cbn [seq_ltr]. unfold bind, ret. specialize (He h).
  destruct (e h) as [v h1]. specialize (IH h1).
  destruct (seq_ltr es h1) as [vs h2]. simpl in *. congruence.
Qed.

Lemma seq_ltr_result_indep (es : list (M (gmap nat AdaptorObjects.obj) T0)) :
  Forall (fun e => forall h h', fst (e h) = fst (e h')) es ->
  forall h h', fst (seq_ltr es h) = fst (seq_ltr es h').
Proof.
  induction 1 as [|e es He Hes IH]; intros h h'; [reflexivity|].
  cbn [seq_ltr]. unfold bind, ret. specialize (He h h').
  destruct (e h) as [v h1], (e h') as [v' h1']. simpl in He. subst v'.
  specialize (IH h1 h1').
  destruct (seq_ltr es h1), (seq_ltr es h1'). simpl in *. congruence.
Qed.

End KeepsCell.

Lemma by_call_unfold {S A B R : Type} (p : A -> M S B) (f : list B -> M S R)
  (xs : list A) (s : S) :
  By.by_call (By.fit_by p f) xs s = (let '(bs, s1) := seq_ltr (map p xs) s in f bs s1).
Proof.
  unfold By.by_call, By.by_eval, By.apply_eval. simpl.
  rewrite map_project_eval. reflexivity.
Qed.

(** C7: the call operators of [by_adaptor], [by_adaptor<P, void>],
    [protect_adaptor] and [construct_f] do not write to the adaptor
    object.  For an adaptor stored at [this], whose wrapped callables do
    not write to [this] (they are called through const references to
    the adaptor's subobjects), a call leaves the object at [this] as it
    was; [construct_f]'s call leaves the whole memory as it was.  Hence
    the next call finds the same adaptor: when the wrapped callables are
    pure (their results do not depend on the memory), calling the same
    adaptor again with the same arguments returns the same result. *)
Theorem adaptor_call_leaves_adaptor_unchanged {A B R T : Type}
  (proj_env : nat -> A -> M (gmap nat AdaptorObjects.obj) B)
  (fn_env : nat -> list B -> M (gmap nat AdaptorObjects.obj) R)
  (pfn_env : nat -> list A -> M (gmap nat AdaptorObjects.obj) R)
  (c : Construct.cpp_class A T) (this : nat) :
  (forall id x h, snd (proj_env id x h) !! this = h !! this) ->
  (forall id ys h, snd (fn_env id ys h) !! this = h !! this) ->
  (forall id xs h, snd (pfn_env id xs h) !! this = h !! this) ->
  forall (xs : list A) (h : gmap nat AdaptorObjects.obj),
  (match AdaptorObjects.by_call_at proj_env fn_env this xs h with
   | Some (r1, h1) =>
       h1 !! this = h !! this
       /\ ((forall id x h h', fst (proj_env id x h) = fst (proj_env id x h')) ->
           (forall id ys h h', fst (fn_env id ys h) = fst (fn_env id ys h')) ->
           exists h2, AdaptorObjects.by_call_at proj_env fn_env this xs h1 = Some (r1, h2))
   | None => True
   end)
  /\
  (match AdaptorObjects.by_void_call_at proj_env this xs h with
   | Some (r1, h1) =>
       h1 !! this = h !! this
       /\ exists h2, AdaptorObjects.by_void_call_at proj_env this xs h1 = Some (r1, h2)
   | None => True
   end)
  /\
  (match AdaptorObjects.protect_call_at pfn_env this xs h with
   | Some (r1, h1) =>
       h1 !! this = h !! this
       /\ ((forall id ys h h', fst (pfn_env id ys h) = fst (pfn_env id ys h')) ->
           exists h2, AdaptorObjects.protect_call_at pfn_env this xs h1 = Some (r1, h2))
   | None => True
   end)
  /\
  (match AdaptorObjects.construct_call_at c this xs h with
   | Some (r1, h1) =>
       h1 = h /\ AdaptorObjects.construct_call_at c this xs h1 = Some (r1, h1)
   | None => True
   end).
Proof.
  intros Hp Hf Hg xs h.
  assert (Hseq : forall pid h0, snd (seq_ltr (map (proj_env pid) xs) h0) !! this = h0 !! this).
  { intros pid h0. apply seq_ltr_keeps_cell. apply Forall_forall.
    intros e He. apply list_elem_of_In, in_map_iff in He as (x & <- & _). apply Hp. }
  split; [|split; [|split]].
  - unfold AdaptorObjects.by_call_at. destruct (h !! this) as [o|] eqn:Ho; [|exact I].
    destruct o as [pid fid| | | |]; try exact I.
    rewrite by_call_unfold.
    pose proof (Hseq pid h) as Hs.
    destruct (seq_ltr (map (proj_env pid) xs) h) as [bs h1] eqn:E1. simpl in Hs.
    pose proof (Hf fid bs h1) as Hfs.
    destruct (fn_env fid bs h1) as [r1 h2] eqn:E2. simpl in Hfs.
    split; [congruence|].
    intros Hpi Hfi. rewrite Hfs, Hs, Ho. rewrite by_call_unfold.
    assert (Hbs : fst (seq_ltr (map (proj_env pid) xs) h2) = bs).
    { change bs with (fst (bs, h1)). rewrite <- E1.
      apply seq_ltr_result_indep. apply Forall_forall.
      intros e He. apply list_elem_of_In, in_map_iff in He as (x & <- & _). apply Hpi. }
    destruct (seq_ltr (map (proj_env pid) xs) h2) as [bs' h3]. simpl in Hbs. subst bs'.
    pose proof (Hfi fid bs h3 h1) as Hr. rewrite E2 in Hr.
    destruct (fn_env fid bs h3) as [r1' h4]. simpl in Hr. subst r1'.
    exists h4. reflexivity.
  - unfold AdaptorObjects.by_void_call_at. destruct (h !! this) as [o|] eqn:Ho; [|exact I].
    destruct o as [| pid | | |]; try exact I.
    assert (Hunf : forall h0, By.by_void_call (By.by1 (proj_env pid)) xs h0
                              = (tt, fold_left (fun s x => snd (proj_env pid x s)) xs h0)).
    { intros h0. unfold By.by_void_call. simpl. unfold bind at 1.
      pose proof (seq_ltr_discard (proj_env pid) xs h0) as H.
      destruct (seq_ltr _ h0) as [zs h0']. simpl in H. unfold ret. rewrite H. reflexivity. }
    rewrite Hunf.
    assert (Hfold : forall h0, fold_left (fun s x => snd (proj_env pid x s)) xs h0 !! this
                               = h0 !! this).
    { clear -Hp. induction xs as [|x xs IH]; intros h0; simpl; [reflexivity|].
      rewrite IH. apply Hp. }
    split; [rewrite Hfold; exact Ho|]. rewrite Hfold, Ho, Hunf. eexists. reflexivity.
  - unfold AdaptorObjects.protect_call_at. destruct (h !! this) as [o|] eqn:Ho; [|exact I].
    destruct o as [| | fid | |]; try exact I.
    unfold Protect.protect_call. simpl.
    pose proof (Hg fid xs h) as Hgs.
    destruct (pfn_env fid xs h) as [r1 h1] eqn:E. simpl in Hgs.
    split; [congruence|]. intros Hgi. rewrite Hgs, Ho. simpl.
    pose proof (Hgi fid xs h1 h) as Hr. rewrite E in Hr.
    destruct (pfn_env fid xs h1) as [r1' h2]. simpl in Hr. subst r1'.
    exists h2. reflexivity.
  - unfold AdaptorObjects.construct_call_at. destruct (h !! this) as [o|] eqn:Ho; [|exact I].
    destruct o; try exact I. split; [reflexivity|]. rewrite Ho. reflexivity.
Qed.

Lemma adaptor_call_leaves_adaptor_unchanged_witness :
  (forall id x h, snd (Tests.proj_mark id x h) !! 0%nat = h !! 0%nat) /\
  (forall id ys h, snd (Tests.fn_mark id ys h) !! 0%nat = h !! 0%nat) /\
  (forall id xs h, snd (Tests.pfn_mark id xs h) !! 0%nat = h !! 0%nat) /\
  ((match AdaptorObjects.by_call_at Tests.proj_mark Tests.fn_mark 0 [1; 2; 3]%Z Tests.by_heap with
    | Some (r1, h1) =>
        h1 !! 0%nat = Tests.by_heap !! 0%nat
        /\ ((forall id x h h', fst (Tests.proj_mark id x h) = fst (Tests.proj_mark id x h')) ->
            (forall id ys h h', fst (Tests.fn_mark id ys h) = fst (Tests.fn_mark id ys h')) ->
            exists h2, AdaptorObjects.by_call_at Tests.proj_mark Tests.fn_mark 0 [1; 2; 3]%Z h1
                       = Some (r1, h2))
    | None => True
    end)
   /\
   (match AdaptorObjects.by_void_call_at Tests.proj_mark 0 [1; 2; 3]%Z Tests.by_heap with
    | Some (r1, h1) =>
        h1 !! 0%nat = Tests.by_heap !! 0%nat
        /\ exists h2, AdaptorObjects.by_void_call_at Tests.proj_mark 0 [1; 2; 3]%Z h1 = Some (r1, h2)
    | None => True
    end)
   /\
   (match AdaptorObjects.protect_call_at Tests.pfn_mark 0 [1; 2; 3]%Z Tests.by_heap with
    | Some (r1, h1) =>
        h1 !! 0%nat = Tests.by_heap !! 0%nat
        /\ ((forall id ys h h', fst (Tests.pfn_mark id ys h) = fst (Tests.pfn_mark id ys h')) ->
            exists h2, AdaptorObjects.protect_call_at Tests.pfn_mark 0 [1; 2; 3]%Z h1 = Some (r1, h2))
    | None => True
    end)
   /\
   (match AdaptorObjects.construct_call_at Construct.vector_int 0 [1; 2; 3]%Z Tests.by_heap with
    | Some (r1, h1) =>
        h1 = Tests.by_heap
        /\ AdaptorObjects.construct_call_at Construct.vector_int 0 [1; 2; 3]%Z h1 = Some (r1, h1)
    | None => True
    end)).
Proof.
  assert (H1 : forall id x h, snd (Tests.proj_mark id x h) !! 0%nat = h !! 0%nat).
  { intros id x h. unfold Tests.proj_mark. simpl. apply lookup_insert_ne. lia. }
  assert (H2 : forall id ys h, snd (Tests.fn_mark id ys h) !! 0%nat = h !! 0%nat).
  { intros id ys h. unfold Tests.fn_mark. simpl. apply lookup_insert_ne. lia. }
  assert (H3 : forall id xs h, snd (Tests.pfn_mark id xs h) !! 0%nat = h !! 0%nat).
  { intros id xs h. unfold Tests.pfn_mark. simpl. apply lookup_insert_ne. lia. }
  split; [exact H1|]. split; [exact H2|]. split; [exact H3|].
  exact (adaptor_call_leaves_adaptor_unchanged Tests.proj_mark Tests.fn_mark Tests.pfn_mark
           Construct.vector_int 0 H1 H2 H3 [1; 2; 3]%Z Tests.by_heap).
Defined.
